(** * TrainTicket graph viewer: selection, fetch and display pipeline

    A shallow embedding of the two TypeScript sources of the viewer,
    [api.ts] (the fetch helpers) and [App.tsx] (the React component that
    owns the selection, the displayed graph, the loading flag and the
    error), followed by the properties of the pipeline.

    Modelling conventions.
    - A JavaScript string is a Rocq [string], read as its UTF-8 bytes.
    - A JavaScript [Set] iterates in insertion order, and [Array.from]
      exposes that order; it is modelled as the list of its elements in
      insertion order.  The mathematical set it denotes is its image in
      [gset].
    - A promise is modelled by its completion: a returned value or a
      thrown value.  [fetch] is a function of the requested path, so the
      backend is deterministic by construction.
    - React state is a record; every setter call is an update of one
      field. *)

From Stdlib Require Import String Ascii NArith List.
From stdpp Require Import base decidable countable gmap sets list strings.

(* set_solver clears hypotheses by name and warns when one is gone *)
Set Warnings "-clear-no-such-hyp".

(** ** JavaScript runtime pieces used by the sources *)

Module Js.

(** *** Completions of asynchronous calls *)

(** The classes of the error objects that can reach the component. *)
Inductive ErrorName := Error | TypeError | SyntaxError | URIError.

(** A thrown value: an [Error] instance with its [message], or any other
    value, represented by what [String(e)] yields for it. *)
Inductive Thrown :=
| ThrownError (name : ErrorName) (message : string)
| ThrownOther (str : string).

Inductive Completion (A : Type) :=
| Return (a : A)
| Throw (e : Thrown).

Arguments Return {A} a.
Arguments Throw {A} e.

(** Sequencing of awaited calls: a thrown value propagates. *)
#[global] Instance Completion_ret : MRet Completion := λ A a, Return a.

#[global] Instance Completion_bind : MBind Completion := λ A B k c,
  match c with
  | Return a => k a
  | Throw e => Throw e
  end.

(** *** Strings *)

(** [Array.prototype.join] on an array of strings. *)
Fixpoint join (sep : string) (l : list string) : string :=
  match l with
  | [] => EmptyString
  | [x] => x
  | x :: rest => x +:+ sep +:+ join sep rest
  end.

(** The characters [encodeURIComponent] leaves alone: ASCII letters,
    digits and the marks - _ . ! ~ * ' ( ). *)
Definition is_unreserved (c : ascii) : bool :=
  let n := N_of_ascii c in
  ((65 <=? n) && (n <=? 90) || (97 <=? n) && (n <=? 122)
   || (48 <=? n) && (n <=? 57))%N
  || bool_decide (c ∈ ["-"; "_"; "."; "!"; "~"; "*"; "'"; "("; ")"]%char).

Definition hex_digit (n : N) : ascii :=
  if (n <? 10)%N then ascii_of_N (48 + n) else ascii_of_N (55 + n).

(** One escaped byte, a percent sign and two upper-case hex digits. *)
Definition percent_byte (c : ascii) : string :=
  let n := N_of_ascii c in
  String "%" (String (hex_digit (n / 16)) (String (hex_digit (n mod 16)) EmptyString)).

(** [encodeURIComponent] on the UTF-8 bytes of a well-formed string: a
    character outside the unreserved set is replaced by the escapes of
    its UTF-8 bytes.  On a string with an unpaired surrogate the builtin
    throws a [URIError] instead; such a string has no UTF-8 form, and
    [well_formed] below tells the byte strings this function is for. *)
Fixpoint encodeURIComponent (s : string) : string :=
  match s with
  | EmptyString => EmptyString
  | String c rest =>
      (if is_unreserved c then String c EmptyString else percent_byte c)
      +:+ encodeURIComponent rest
  end.

(** [lo <= c <= hi] on the code of a byte. *)
Definition in_range (lo hi : N) (c : ascii) : bool :=
  ((lo <=? N_of_ascii c) && (N_of_ascii c <=? hi))%N.

(** A continuation byte, 80..BF. *)
Definition continuation (c : ascii) : bool := in_range 128 191 c.

(** The first two bytes of a three-byte sequence: E0 A0..BF, E1..EC
    80..BF, ED 80..9F (the surrogates ED A0..BF are left out) and
    EE..EF 80..BF. *)
Definition three_byte_start (b0 b1 : ascii) : bool :=
  in_range 224 224 b0 && in_range 160 191 b1
  || in_range 225 236 b0 && in_range 128 191 b1
  || in_range 237 237 b0 && in_range 128 159 b1
  || in_range 238 239 b0 && in_range 128 191 b1.

(** The first two bytes of a four-byte sequence: F0 90..BF, F1..F3
    80..BF and F4 80..8F. *)
Definition four_byte_start (b0 b1 : ascii) : bool :=
  in_range 240 240 b0 && in_range 144 191 b1
  || in_range 241 243 b0 && in_range 128 191 b1
  || in_range 244 244 b0 && in_range 128 143 b1.

(** The byte strings that are the UTF-8 form of a JavaScript string
    without unpaired surrogate: sequences of 00..7F, C2..DF followed by
    one continuation byte, and the three-byte and four-byte sequences
    above.  These are the arguments on which [encodeURIComponent]
    returns. *)
Fixpoint well_formed (s : string) : bool :=
  match s with
  | EmptyString => true
  | String b0 rest =>
      if in_range 0 127 b0 then well_formed rest
      else
        match rest with
        | EmptyString => false
        | String b1 rest1 =>
            if in_range 194 223 b0 then continuation b1 && well_formed rest1
            else
              match rest1 with
              | EmptyString => false
              | String b2 rest2 =>
                  if three_byte_start b0 b1
                  then continuation b2 && well_formed rest2
                  else
                    match rest2 with
                    | EmptyString => false
                    | String b3 rest3 =>
                        four_byte_start b0 b1 && continuation b2
                        && continuation b3 && well_formed rest3
                    end
              end
        end
  end.

(** The number of times a character occurs in a string. *)
Fixpoint occurrences (c : ascii) (s : string) : nat :=
  match s with
  | EmptyString => 0
  | String d rest => (if decide (d = c) then 1 else 0) + occurrences c rest
  end.

(** *** Sets *)

(** The elements of a [Set], in insertion order. *)
Abbreviation JsSet := list.

Section JsSet.
Context {A : Type} `{EqDecision A}.

(** [new Set()] *)
Definition Set_new : JsSet A := [].

(** [new Set(prev)]: a copy with the same elements in the same order. *)
Definition Set_copy (prev : JsSet A) : JsSet A := prev.

(** [s.has(x)] *)
Definition Set_has (x : A) (s : JsSet A) : bool := bool_decide (x ∈ s).

(** [s.delete(x)] *)
Definition Set_delete (x : A) (s : JsSet A) : JsSet A := filter (λ y, y ≠ x) s.

(** [s.add(x)]: a new element goes last, a present one keeps its place. *)
Definition Set_add (x : A) (s : JsSet A) : JsSet A :=
  if Set_has x s then s else (s ++ [x])%list.

(** [s.size] *)
Definition Set_size (s : JsSet A) : nat := length s.

(** [Array.from(s)] *)
Definition Array_from (s : JsSet A) : list A := s.

(** The set of values a [Set] holds. *)
Definition members `{Countable A} (s : JsSet A) : gset A := list_to_set s.

End JsSet.

End Js.

(** ** [api.ts]: the fetch helpers *)

Module Api.
Import Js.

Definition API_BASE : string := "/api".

(** The body of a successful answer.  The declared type makes [nodes] and
    [edges] arrays; the component guards both with [??], so a field that
    is [null] or missing is representable, as [None]. *)
Record IntersectionResponse := {
  options : list string;
  nodes : option (list string);
  edges : option (list (string * string));
}.

(** A received HTTP response: its status, what [r.text()] yields, and
    what [r.json()] yields ([Throw] of a [SyntaxError] when the body is
    not JSON). *)
Record Response (T : Type) := {
  status : nat;
  text : string;
  json : Completion T;
}.

Arguments status {T} r.
Arguments text {T} r.
Arguments json {T} r.

(** [r.ok]: the status is in the range 200 to 299. *)
Definition ok {T} (r : Response T) : bool :=
  (200 <=? status r) && (status r <=? 299).

(** The platform [fetch]: for a path, a response, or a rejection when
    the transport fails. *)
Definition Fetch (T : Type) := string -> Completion (Response T).

(** A computation together with the paths it requested, in order. *)
Definition Traced (A : Type) : Type := list string * A.

Section WithFetch.
Context {T : Type} (fetch : Fetch T).

Definition fetchJson (path : string) : Traced (Completion T) :=
  ([path],
   r ← fetch path;
   if negb (ok r) then Throw (ThrownError Error (text r))
   else json r).

End WithFetch.

(** The query string built from the options. *)
Definition params (options : list string) : string :=
  match length options with
  | 0 => EmptyString
  | _ => "?" +:+ join "&" (map (λ o, "options=" +:+ encodeURIComponent o) options)
  end.

(** [options] is a parameter with default [[]]: [None] is the omitted
    argument. *)
Definition fetchIntersection (fetch : Fetch IntersectionResponse)
    (options : option (list string)) : Traced (Completion IntersectionResponse) :=
  let options := default [] options in
  fetchJson fetch (API_BASE +:+ "/intersection" +:+ params options).

End Api.

(** ** [App.tsx]: the component state and its handlers *)

Module App.
Import Js.

Inductive FilterId := public | sink | vuln.

(** A [FilterId] is a string literal type; this is the string. *)
Definition FilterId_str (f : FilterId) : string :=
  match f with
  | public => "public"
  | sink => "sink"
  | vuln => "vuln"
  end.

#[global] Instance FilterId_eq_dec : EqDecision FilterId.
Proof. solve_decision. Defined.

#[global] Instance FilterId_countable : Countable FilterId.
Proof.
  refine (inj_countable'
    (λ f, match f with public => 0 | sink => 1 | vuln => 2 end)
    (λ n, match n with 0 => public | 1 => sink | _ => vuln end) _).
  by intros [].
Defined.

Definition FILTERS : list (FilterId * string) :=
  [ (public, "From public services");
    (sink, "To RDS/SQL sinks");
    (vuln, "With vulnerability") ].

Definition FILTER_COLORS (f : FilterId) : string :=
  match f with
  | public => "#22c55e"
  | sink => "#3b82f6"
  | vuln => "#ef4444"
  end.

Definition DEFAULT_LINK_COLOR : string := "#64748b".

Record GraphNode := { id : string; group : list FilterId }.
Record GraphLink := { source : string; target : string }.
Record Graph := { nodes : list GraphNode; links : list GraphLink }.

(** The four [useState] cells of the component. *)
Record State := {
  selected : JsSet FilterId;
  graph : Graph;
  loading : bool;
  error : option string;
}.

(** The state of the first render. *)
Definition initial : State :=
  {| selected := Set_new;
     graph := {| nodes := []; links := [] |};
     loading := false;
     error := None |}.

Definition setSelected (f : JsSet FilterId -> JsSet FilterId) (s : State) : State :=
  {| selected := f (selected s); graph := graph s;
     loading := loading s; error := error s |}.

Definition setGraph (g : Graph) (s : State) : State :=
  {| selected := selected s; graph := g;
     loading := loading s; error := error s |}.

Definition setLoading (b : bool) (s : State) : State :=
  {| selected := selected s; graph := graph s;
     loading := b; error := error s |}.

Definition setError (e : option string) (s : State) : State :=
  {| selected := selected s; graph := graph s;
     loading := loading s; error := e |}.

(** *** [toggle] *)

(** The updater passed to [setSelected]. *)
Definition toggle_updater (id : FilterId) (prev : JsSet FilterId) : JsSet FilterId :=
  let next := Set_copy prev in
  if Set_has id next then Set_delete id next else Set_add id next.

Definition toggle (id : FilterId) (s : State) : State :=
  setSelected (toggle_updater id) s.

(** A sequence of clicks on the check boxes, first to last. *)
Definition toggle_all (ids : list FilterId) (s : State) : State :=
  fold_left (λ s id, toggle id s) ids s.

(** *** [nodeColor] *)

(** [None] stands for [undefined], what indexing [FILTER_COLORS] with a
    missing [groups[0]] would give. *)
Definition nodeColor (node : GraphNode) : option string :=
  let groups := group node in
  if length groups =? 0 then Some "#94a3b8"
  else if length groups =? 1 then FILTER_COLORS <$> groups !! 0
  else Some "#a855f7".

(** *** [apply] *)

(** [e instanceof Error ? e.message : String(e)] *)
Definition catch_message (e : Thrown) : string :=
  match e with
  | ThrownError _ message => message
  | ThrownOther str => str
  end.

(** The [nodes] constant of the [try] block. *)
Definition apply_nodes (r : Api.IntersectionResponse) (options : list FilterId)
    : list GraphNode :=
  map (λ id, {| id := id; group := options |}) (default [] (Api.nodes r)).

(** The [links] constant of the [try] block. *)
Definition apply_links (r : Api.IntersectionResponse) : list GraphLink :=
  map (λ '(source, target), {| source := source; target := target |})
      (default [] (Api.edges r)).

(** Where a call of [apply] stands: before its first statement, suspended
    at the [await] with the snapshot of the options and the pending
    promise, resumed in the [try] block with the answer, resumed in the
    [catch] block with the thrown value, or returned. *)
Inductive Pc :=
| AtEntry
| Awaiting (options : list FilterId) (pending : Completion Api.IntersectionResponse)
| InThen (options : list FilterId) (r : Api.IntersectionResponse)
| InCatch (e : Thrown)
| Finished.

(** A call in progress: the position, the component state and the
    requests sent so far. *)
Record Config := { pc : Pc; st : State; requests : list string }.

(** The [finally] block, run on the way out of both branches. *)
Definition apply_finally (s : State) : State := setLoading false s.

Definition step (fetch : Api.Fetch Api.IntersectionResponse) (c : Config) : Config :=
  match pc c with
  | AtEntry =>
      let s := setError None (setLoading true (st c)) in
      let options := Array_from (selected s) in
      let '(sent, pending) :=
        Api.fetchIntersection fetch (Some (map FilterId_str options)) in
      {| pc := Awaiting options pending; st := s;
         requests := requests c ++ sent |}
  | Awaiting options (Return r) =>
      {| pc := InThen options r; st := st c; requests := requests c |}
  | Awaiting options (Throw e) =>
      {| pc := InCatch e; st := st c; requests := requests c |}
  | InThen options r =>
      let nodes := apply_nodes r options in
      let links := apply_links r in
      let s := setGraph {| nodes := nodes; links := links |} (st c) in
      {| pc := Finished; st := apply_finally s; requests := requests c |}
  | InCatch e =>
      let s := setError (Some (catch_message e)) (st c) in
      let s := setGraph {| nodes := []; links := [] |} s in
      {| pc := Finished; st := apply_finally s; requests := requests c |}
  | Finished => c
  end.

(** The configuration [n] steps after [apply] is invoked in state [s]. *)
Definition run (fetch : Api.Fetch Api.IntersectionResponse) (n : nat) (s : State)
    : Config :=
  Nat.iter n (step fetch) {| pc := AtEntry; st := s; requests := [] |}.

(** One whole call: it returns after three steps. *)
Definition apply (fetch : Api.Fetch Api.IntersectionResponse) (s : State) : State :=
  st (run fetch 3 s).

(** The phases of a call, as the specification names them. *)
Inductive Phase := Idle | Loading | Success | Failure.

Definition phase (c : Config) : Phase :=
  match pc c with
  | AtEntry | Finished => Idle
  | Awaiting _ _ => Loading
  | InThen _ _ => Success
  | InCatch _ => Failure
  end.

(** *** Events during a call *)

(** An event handled while a call is suspended at the [await]: the
    handler runs on the component state and the call keeps its place. *)
Definition during (handler : State -> State) (c : Config) : Config :=
  {| pc := pc c; st := handler (st c); requests := requests c |}.

(** A call of [apply] with the check boxes [ids] clicked while the
    request is in flight.  The continuation of the [await] runs to the
    end of the function without interruption. *)
Definition apply_with_clicks (fetch : Api.Fetch Api.IntersectionResponse)
    (ids : list FilterId) (s : State) : State :=
  st (step fetch (step fetch (during (toggle_all ids) (run fetch 1 s)))).

(** The states the component can rest in: the first render, then clicks
    on check boxes and calls of [apply], each against whatever the
    backend answers at that time. *)
Inductive reachable : State -> Prop :=
| reachable_initial : reachable initial
| reachable_toggle (id : FilterId) (s : State) :
    reachable s -> reachable (toggle id s)
| reachable_apply (fetch : Api.Fetch Api.IntersectionResponse)
    (ids : list FilterId) (s : State) :
    reachable s -> reachable (apply_with_clicks fetch ids s).

(** *** What the render shows *)

(** [checked={selected.has(id)}] *)
Definition checkbox_checked (id : FilterId) (s : State) : bool :=
  Set_has id (selected s).

(** [disabled={loading}] *)
Definition button_disabled (s : State) : bool := loading s.

(** [loading ? 'Loading…' : selected.size ? 'Filter' : 'Full graph'] *)
Definition button_label (s : State) : string :=
  if loading s then "Loading…"
  else if negb (Set_size (selected s) =? 0) then "Filter"
  else "Full graph".


(** *** The layout mode *)

(** The [dagBlocked] cell, with the value of [graph.nodes.length] at the
    last render whose effect ran ([None] before the first render). *)
Record Dag := { dagBlocked : bool; deps : option nat }.

Definition dag_initial : Dag := {| dagBlocked := false; deps := None |}.

(** The effect [setDagBlocked(false)] with dependencies
    [[graph.nodes.length]], after a render that shows graph [g]: it runs
    on the first render and when the dependency differs from the last
    one. *)
Definition dag_effect (g : Graph) (d : Dag) : Dag :=
  if decide (deps d = Some (length (nodes g))) then d
  else {| dagBlocked := false; deps := Some (length (nodes g)) |}.

(** [onDagError={() => setDagBlocked(true)}] *)
Definition onDagError (d : Dag) : Dag :=
  {| dagBlocked := true; deps := deps d |}.

(** [dagMode={dagBlocked ? undefined : 'lr'}], [None] for [undefined]. *)
Definition dagMode (d : Dag) : option string :=
  if dagBlocked d then None else Some "lr".

(** The renders of a sequence of graphs, first to last. *)
Definition dag_renders (gs : list Graph) (d : Dag) : Dag :=
  fold_left (λ d g, dag_effect g d) gs d.

End App.

(** ** Properties *)

Import Js.

(** *** The insertion-ordered set *)

Section JsSetFacts.
Context {A : Type} {EqA : EqDecision A} {CountA : Countable A}.
Implicit Types (x y : A) (s : JsSet A).

Lemma Set_has_true x s : Set_has x s = true ↔ x ∈ s.
Proof. unfold Set_has. by rewrite bool_decide_eq_true. Qed.

Lemma Set_has_false x s : Set_has x s = false ↔ x ∉ s.
Proof. unfold Set_has. by rewrite bool_decide_eq_false. Qed.

Lemma Set_has_members x s : Set_has x s = true ↔ x ∈ members s.
Proof. rewrite Set_has_true. unfold members. by rewrite elem_of_list_to_set. Qed.

Lemma members_delete x s : members (Set_delete x s) = members s ∖ {[x]}.
Proof.
  apply set_eq. intros y. unfold members, Set_delete.
  rewrite elem_of_difference, !elem_of_list_to_set, list_elem_of_filter.
  set_solver.
Qed.

Lemma members_add x s : members (Set_add x s) = members s ∪ {[x]}.
Proof.
  apply set_eq. intros y. unfold members, Set_add.
  destruct (Set_has x s) eqn:E.
  - apply Set_has_true in E. set_solver.
  - rewrite list_to_set_app. set_solver.
Qed.

Lemma Set_delete_absent x s : x ∉ s → Set_delete x s = s.
Proof.
  intros Hx. unfold Set_delete. induction s as [|y s IH]; [done|].
  rewrite filter_cons. apply not_elem_of_cons in Hx as [? ?].
  rewrite decide_True by done. f_equal. by apply IH.
Qed.

Lemma Set_delete_last x s : x ∉ s → Set_delete x (s ++ [x]) = s.
Proof.
  intros Hx. pose proof (Set_delete_absent x s Hx) as Hs.
  unfold Set_delete in *. rewrite filter_app, Hs.
  rewrite filter_cons, decide_False by (intros ?; done).
  rewrite filter_nil. apply app_nil_r.
Qed.

Lemma Set_delete_NoDup x s : NoDup s → NoDup (Set_delete x s).
Proof. apply NoDup_filter. Qed.

Lemma Set_add_NoDup x s : NoDup s → NoDup (Set_add x s).
Proof.
  intros Hs. unfold Set_add. destruct (Set_has x s) eqn:E; [done|].
  apply Set_has_false in E. apply NoDup_app. repeat split; [done| |apply NoDup_singleton].
  intros y Hy ->%list_elem_of_singleton. done.
Qed.

End JsSetFacts.

(** *** [toggle] *)

Import App.

(** One click flips the membership of the clicked filter and of no other. *)
Lemma members_toggle_updater (f : FilterId) (s : JsSet FilterId) :
  members (toggle_updater f s) =
  if Set_has f s then members s ∖ {[f]} else members s ∪ {[f]}.
Proof.
  unfold toggle_updater, Set_copy. destruct (Set_has f s) eqn:E.
  - apply members_delete.
  - rewrite members_add. reflexivity.
Qed.

Lemma Set_has_toggle_updater (f : FilterId) (s : JsSet FilterId) :
  Set_has f (toggle_updater f s) = negb (Set_has f s).
Proof.
  pose proof (Set_has_members f (toggle_updater f s)) as Hafter.
  pose proof (Set_has_members f s) as Hbefore.
  rewrite members_toggle_updater in Hafter.
  destruct (Set_has f s) eqn:E; simpl.
  - destruct (Set_has f (toggle_updater f s)); [|done].
    destruct Hafter as [Hafter _]. specialize (Hafter eq_refl).
    apply elem_of_difference in Hafter as [_ Hn].
    exfalso. apply Hn. by apply elem_of_singleton.
  - apply Hafter. apply elem_of_union. right. by apply elem_of_singleton.
Qed.

Lemma toggle_updater_NoDup (f : FilterId) (s : JsSet FilterId) :
  NoDup s → NoDup (toggle_updater f s).
Proof.
  intros Hs. unfold toggle_updater, Set_copy. destruct (Set_has f s).
  - by apply Set_delete_NoDup.
  - by apply Set_add_NoDup.
Qed.

(** Clicking a filter that is not selected appends it. *)
Lemma toggle_updater_absent (f : FilterId) (s : JsSet FilterId) :
  f ∉ s → toggle_updater f s = s ++ [f].
Proof.
  intros Hf. unfold toggle_updater, Set_copy, Set_add.
  apply Set_has_false in Hf. by rewrite Hf.
Qed.

(** Clicks on distinct filters, none of them selected yet, leave the
    selection extended by the clicked filters in click order. *)
Lemma toggle_all_fresh (l : list FilterId) (s : State) :
  NoDup (selected s ++ l) →
  selected (toggle_all l s) = selected s ++ l.
Proof.
  revert s. induction l as [|f l IH]; intros s Hnd.
  - simpl. by rewrite app_nil_r.
  - simpl. rewrite IH.
    + simpl. rewrite toggle_updater_absent.
      * by rewrite <- app_assoc.
      * apply NoDup_app in Hnd as (_ & Hdisj & _). intros Hin.
        apply (Hdisj f Hin). by left.
    + simpl. rewrite toggle_updater_absent.
      * by rewrite <- app_assoc.
      * apply NoDup_app in Hnd as (_ & Hdisj & _). intros Hin.
        apply (Hdisj f Hin). by left.
Qed.

(** The handlers other than [toggle] never touch the selection, and
    [toggle] touches nothing else. *)
Lemma toggle_frame (f : FilterId) (s : State) :
  graph (toggle f s) = graph s ∧ loading (toggle f s) = loading s
  ∧ error (toggle f s) = error s.
Proof. done. Qed.

(** C4. Starting from the empty selection, one click on each element of
    a subset [S] of the filters, taken in any order [l], leaves a
    selection whose set of members is [S]; so any two orders of the
    clicks give the same set. *)
Theorem toggle_all_from_empty (S : gset FilterId) (l : list FilterId) :
  NoDup l → list_to_set l = S →
  members (selected (toggle_all l initial)) = S
  ∧ ∀ l', NoDup l' → list_to_set l' = S →
      members (selected (toggle_all l' initial))
      = members (selected (toggle_all l initial)).
Proof.
  assert (Hone : ∀ k : list FilterId, NoDup k →
            members (selected (toggle_all k initial)) = list_to_set k).
  { intros k Hk. by rewrite toggle_all_fresh. }
  intros Hl HS. split.
  - by rewrite Hone.
  - intros l' Hl' HS'. rewrite !Hone by done. congruence.
Qed.

Lemma toggle_all_from_empty_witness :
  members (selected (toggle_all [vuln; public] initial)) = {[public; vuln]}
  ∧ members (selected (toggle_all [public; vuln] initial))
    = members (selected (toggle_all [vuln; public] initial)).
Proof.
  destruct (toggle_all_from_empty {[public; vuln]} [vuln; public]) as [H1 H2].
  - apply (bool_decide_unpack _). vm_compute. exact I.
  - vm_compute. reflexivity.
  - split; [exact H1|]. apply H2.
    + apply (bool_decide_unpack _). vm_compute. exact I.
    + vm_compute. reflexivity.
Defined.

(** C5. Two clicks in a row on the same filter leave the set of selected
    filters as it was; one click flips the membership of that filter and
    of no other; and a click changes nothing but the selection: the
    graph, the loading flag and the error stay, and [toggle] sends no
    request, being a function of the component state alone. *)
Theorem toggle_twice (f : FilterId) (s : State) :
  members (selected (toggle f (toggle f s))) = members (selected s)
  ∧ (f ∈ members (selected (toggle f s)) ↔ f ∉ members (selected s))
  ∧ (∀ g, g ≠ f →
       g ∈ members (selected (toggle f s)) ↔ g ∈ members (selected s))
  ∧ graph (toggle f s) = graph s
  ∧ loading (toggle f s) = loading s
  ∧ error (toggle f s) = error s.
Proof.
  destruct s as [sel g ld er]. simpl.
  pose proof (Set_has_members f sel) as Hsel.
  rewrite !members_toggle_updater, Set_has_toggle_updater.
  destruct (Set_has f sel) eqn:E; simpl.
  - assert (Hin : f ∈ members sel) by (by apply Hsel).
    repeat split; try done.
    + apply set_eq. intros x.
      rewrite elem_of_union, elem_of_difference, elem_of_singleton.
      destruct (decide (x = f)) as [->|]; naive_solver.
    + intros [_ Hn]%elem_of_difference. exfalso. apply Hn. by apply elem_of_singleton.
    + by intros [? _]%elem_of_difference.
    + intros ?. apply elem_of_difference. split; [done|].
      by intros ?%elem_of_singleton.
  - assert (Hout : f ∉ members sel).
    { intros Hin. apply Hsel in Hin. congruence. }
    repeat split; try done.
    + apply set_eq. intros x.
      rewrite elem_of_difference, elem_of_union, elem_of_singleton.
      destruct (decide (x = f)) as [->|]; naive_solver.
    + intros _. apply elem_of_union. right. by apply elem_of_singleton.
    + intros [?|?%elem_of_singleton]%elem_of_union; done.
    + intros ?. apply elem_of_union. by left.
Qed.

Lemma toggle_twice_witness :
  vuln ∈ members (selected (toggle public (toggle sink initial)))
  ↔ vuln ∈ members (selected (toggle sink initial)).
Proof.
  destruct (toggle_twice public (toggle sink initial)) as (_ & _ & H & _).
  apply (H vuln). intros E. discriminate E.
Defined.

(** The insertion order is not part of the set: two clicks on a selected
    filter move it to the end of the iteration order, so the next request
    lists the same options in another order. *)
Example double_toggle_moves_last :
  selected (toggle public (toggle public (toggle_all [public; sink] initial)))
  = [sink; public].
Proof. reflexivity. Qed.

(** Two clicks on a filter that is not selected restore the selection
    with its order. *)
Lemma double_toggle_absent (f : FilterId) (s : State) :
  f ∉ selected s → selected (toggle f (toggle f s)) = selected s.
Proof.
  intros Hf. simpl. rewrite (toggle_updater_absent f (selected s) Hf).
  unfold toggle_updater, Set_copy.
  assert (Set_has f (selected s ++ [f]) = true) as ->.
  { apply Set_has_true. apply elem_of_app. right. by left. }
  by apply Set_delete_last.
Qed.

(** The selection never holds a filter twice. *)
Lemma toggle_NoDup (f : FilterId) (s : State) :
  NoDup (selected s) → NoDup (selected (toggle f s)).
Proof. apply toggle_updater_NoDup. Qed.

(** *** [nodeColor] *)

Lemma FILTER_COLORS_inj (x y : FilterId) :
  FILTER_COLORS x = FILTER_COLORS y → x = y.
Proof. destruct x, y; simpl; intros E; try reflexivity; discriminate E. Qed.

(** A duplicate-free listing of a set has as many entries as the set has
    elements. *)
Lemma size_list_to_set_NoDup (l : list FilterId) :
  NoDup l → size (list_to_set (C := gset FilterId) l) = length l.
Proof. apply size_list_to_set. Qed.

(** The subsets of the three filters with two elements or more. *)
Lemma large_subsets (S : gset FilterId) :
  2 ≤ size S ↔
  S ∈ [ {[public; sink]}; {[public; vuln]}; {[sink; vuln]};
        {[public; sink; vuln]} ] .
Proof.
  split.
  - intros Hsz.
    assert (HS : S = list_to_set
       (filter (λ f, f ∈ S) [public; sink; vuln])).
    { apply set_eq. intros x. rewrite elem_of_list_to_set, list_elem_of_filter.
      split; [|tauto]. intros Hx. split; [done|]. destruct x; set_solver. }
    rewrite HS in Hsz |- *. clear HS.
    rewrite !filter_cons, filter_nil in *.
    destruct (decide (public ∈ S)), (decide (sink ∈ S)), (decide (vuln ∈ S));
      try (vm_compute in Hsz; lia);
      rewrite !elem_of_cons; set_solver.
  - rewrite !elem_of_cons, elem_of_nil.
    intros [->|[->|[->|[->|[]]]]]; vm_compute; lia.
Qed.

(** The three cases of [nodeColor], read off the length of the tag list. *)
Lemma nodeColor_cases (node : GraphNode) :
  (group node = [] ∧ nodeColor node = Some "#94a3b8")
  ∨ (∃ x, group node = [x] ∧ nodeColor node = Some (FILTER_COLORS x))
  ∨ (2 ≤ length (group node) ∧ nodeColor node = Some "#a855f7").
Proof.
  destruct node as [i [|x [|y rest]]]; unfold nodeColor; simpl.
  - by left.
  - right; left. by exists x.
  - right; right. split; [lia|done].
Qed.

(** C3. The colour of a node is defined for every node and depends only
    on the set of its tags: the empty set gets the neutral colour, a
    singleton gets the colour of its filter, the three filters having
    three different colours, and each of the four sets with two filters
    or more gets the one colour for several filters.  The tags of a
    displayed node come from a [Set], so they are listed without
    repetition. *)
Theorem nodeColor_rule (node : GraphNode) :
  NoDup (group node) →
  let tags : gset FilterId := list_to_set (group node) in
  (∃ c, nodeColor node = Some c)
  ∧ (tags = ∅ → nodeColor node = Some "#94a3b8")
  ∧ (∀ x, tags = {[x]} → nodeColor node = Some (FILTER_COLORS x))
  ∧ (2 ≤ size tags → nodeColor node = Some "#a855f7")
  ∧ (2 ≤ size tags ↔
       tags ∈ [ {[public; sink]}; {[public; vuln]}; {[sink; vuln]};
                {[public; sink; vuln]} ])
  ∧ (∀ node', NoDup (group node') → list_to_set (group node') = tags →
       nodeColor node' = nodeColor node)
  ∧ (∀ x y, FILTER_COLORS x = FILTER_COLORS y → x = y).
Proof.
  intros Hnd tags.
  assert (Hsize : ∀ n, NoDup (group n) →
            size (list_to_set (C := gset FilterId) (group n)) = length (group n))
    by (intros n; apply size_list_to_set_NoDup).
  assert (Hbysize : ∀ n, NoDup (group n) →
            let t : gset FilterId := list_to_set (group n) in
            (t = ∅ ∧ nodeColor n = Some "#94a3b8")
            ∨ (∃ x, t = {[x]} ∧ nodeColor n = Some (FILTER_COLORS x))
            ∨ (2 ≤ size t ∧ nodeColor n = Some "#a855f7")).
  { intros n Hn t. subst t. rewrite (Hsize n Hn).
    destruct (nodeColor_cases n) as [[E C]|[[x [E C]]|[E C]]].
    - left. by rewrite E.
    - right; left. exists x. rewrite E. split; [|done].
      simpl. apply set_eq. intros z. set_solver.
    - right; right. done. }
  assert (Hexcl1 : ∀ x : FilterId, ({[x]} : gset FilterId) ≠ ∅).
  { intros x E. assert (x ∈ (∅ : gset FilterId)) as Hx by (rewrite <- E; set_solver).
    set_solver. }
  assert (Hsz0 : size (∅ : gset FilterId) = 0) by apply size_empty.
  assert (Hsz1 : ∀ x : FilterId, size ({[x]} : gset FilterId) = 1)
    by (intros; apply size_singleton).
  assert (Hsingle : ∀ x y : FilterId, ({[x]} : gset FilterId) = {[y]} → x = y).
  { intros x y E. assert (x ∈ ({[y]} : gset FilterId)) as Hx by (rewrite <- E; set_solver).
    set_solver. }
  pose proof (Hbysize node Hnd) as Hcase. simpl in Hcase. fold tags in Hcase.
  repeat split.
  - destruct Hcase as [[_ C]|[[x [_ C]]|[_ C]]]; eauto.
  - intros E. destruct Hcase as [[_ C]|[[x [E' C]]|[E' C]]]; [done| |].
    + rewrite E in E'. symmetry in E'. by apply Hexcl1 in E'.
    + rewrite E, Hsz0 in E'. lia.
  - intros x E. destruct Hcase as [[E' C]|[[y [E' C]]|[E' C]]].
    + rewrite E in E'. by apply Hexcl1 in E'.
    + rewrite E in E'. apply Hsingle in E'. by subst y.
    + rewrite E, Hsz1 in E'. lia.
  - intros Hsz. destruct Hcase as [[E' C]|[[y [E' C]]|[E' C]]]; [| |done].
    + rewrite E', Hsz0 in Hsz. lia.
    + rewrite E', Hsz1 in Hsz. lia.
  - apply large_subsets.
  - apply large_subsets.
  - intros node' Hnd' Etags.
    pose proof (Hbysize node' Hnd') as Hcase'. simpl in Hcase'.
    rewrite Etags in Hcase'.
    destruct Hcase as [[E C]|[[x [E C]]|[E C]]];
      destruct Hcase' as [[E' C']|[[x' [E' C']]|[E' C']]];
      rewrite C, C'; try done.
    + rewrite E in E'. symmetry in E'. by apply Hexcl1 in E'.
    + rewrite E, Hsz0 in E'. lia.
    + rewrite E in E'. by apply Hexcl1 in E'.
    + rewrite E in E'. apply Hsingle in E'. by subst.
    + rewrite E, Hsz1 in E'. lia.
    + rewrite E', Hsz0 in E. lia.
    + rewrite E', Hsz1 in E. lia.
  - apply FILTER_COLORS_inj.
Qed.

Lemma nodeColor_rule_witness :
  nodeColor {| id := "a"; group := [sink; public] |} = Some "#a855f7".
Proof.
  destruct (nodeColor_rule {| id := "a"; group := [sink; public] |})
    as (_ & _ & _ & H & _).
  - apply (bool_decide_unpack _). vm_compute. exact I.
  - apply H. vm_compute. lia.
Defined.

(** *** [fetchJson] and [fetchIntersection] *)

Lemma encodeURIComponent_FilterId (f : FilterId) :
  encodeURIComponent (FilterId_str f) = FilterId_str f.
Proof. destruct f; reflexivity. Qed.

Lemma params_nil : Api.params [] = EmptyString.
Proof. reflexivity. Qed.

Lemma params_FilterIds (f : FilterId) (l : list FilterId) :
  Api.params (map FilterId_str (f :: l))
  = "?" +:+ join "&" (map (λ g, "options=" +:+ FilterId_str g) (f :: l)).
Proof.
  unfold Api.params. cbn [map length]. f_equal. f_equal.
  rewrite map_map. f_equal.
  - by rewrite encodeURIComponent_FilterId.
  - apply map_ext. intros g. by rewrite encodeURIComponent_FilterId.
Qed.

(** [fetchJson] sends one request, for the path it is given. *)
Lemma fetchJson_requests {T} (fetch : Api.Fetch T) (path : string) :
  (Api.fetchJson fetch path).1 = [path].
Proof. reflexivity. Qed.

Lemma fetchJson_rejected {T} (fetch : Api.Fetch T) (path : string) (e : Thrown) :
  fetch path = Throw e → (Api.fetchJson fetch path).2 = Throw e.
Proof. intros E. unfold Api.fetchJson. simpl. by rewrite E. Qed.

Lemma fetchJson_not_ok {T} (fetch : Api.Fetch T) (path : string) (r : Api.Response T) :
  fetch path = Return r → Api.ok r = false →
  (Api.fetchJson fetch path).2 = Throw (ThrownError Error (Api.text r)).
Proof. intros E Hok. unfold Api.fetchJson. simpl. rewrite E. simpl. by rewrite Hok. Qed.

Lemma fetchJson_ok {T} (fetch : Api.Fetch T) (path : string) (r : Api.Response T) :
  fetch path = Return r → Api.ok r = true →
  (Api.fetchJson fetch path).2 = Api.json r.
Proof. intros E Hok. unfold Api.fetchJson. simpl. rewrite E. simpl. by rewrite Hok. Qed.

Lemma ok_2xx {T} (r : Api.Response T) :
  Api.ok r = true ↔ 200 ≤ Api.status r ≤ 299.
Proof.
  unfold Api.ok. rewrite andb_true_iff, !Nat.leb_le. reflexivity.
Qed.

(** C7, as the code has it. For a received response, a status outside
    200..299 makes [fetchJson] throw an [Error] whose message is exactly
    the body text; with a status in 200..299 it throws nothing of its own
    and yields what [r.json()] yields, the parsed body when the body
    parses. So among the responses whose body parses, [fetchJson] throws
    if and only if the status is outside 200..299. *)
Theorem fetchJson_status_rule {T} (fetch : Api.Fetch T) (path : string)
    (r : Api.Response T) :
  fetch path = Return r →
  (Api.ok r = false →
     (Api.fetchJson fetch path).2 = Throw (ThrownError Error (Api.text r)))
  ∧ (Api.ok r = true → (Api.fetchJson fetch path).2 = Api.json r)
  ∧ (∀ v, Api.json r = Return v →
       ((∃ e, (Api.fetchJson fetch path).2 = Throw e) ↔ Api.ok r = false)
       ∧ (Api.ok r = true → (Api.fetchJson fetch path).2 = Return v))
  ∧ (Api.ok r = false ↔ ¬ 200 ≤ Api.status r ≤ 299).
Proof.
  intros E. repeat split.
  - by apply fetchJson_not_ok.
  - by apply fetchJson_ok.
  - intros [e He]. destruct (Api.ok r) eqn:Hok; [|done].
    rewrite (fetchJson_ok fetch path r E Hok) in He. congruence.
  - intros Hok. eexists. by apply fetchJson_not_ok.
  - intros Hok. rewrite (fetchJson_ok fetch path r E Hok). done.
  - intros Hok H2xx. apply ok_2xx in H2xx. congruence.
  - intros Hn. destruct (Api.ok r) eqn:Hok; [|done].
    exfalso. apply Hn. by apply ok_2xx.
Qed.

Lemma fetchJson_status_rule_witness :
  (Api.fetchJson
     (λ _, Return {| Api.status := 404; Api.text := "Not Found";
                     Api.json := Return 0 |})
     "/api/intersection").2
  = Throw (ThrownError Error "Not Found").
Proof.
  destruct (fetchJson_status_rule
    (λ _, Return {| Api.status := 404; Api.text := "Not Found";
                    Api.json := Return 0 |})
    "/api/intersection"
    {| Api.status := 404; Api.text := "Not Found"; Api.json := Return 0 |})
    as (H & _).
  - reflexivity.
  - apply H. reflexivity.
Defined.

(** C7, as stated, fails: a response with status 200 whose body is not
    JSON (the page a development server answers with when the proxy is
    not set up) makes [r.json()] throw, so [fetchJson] throws although
    the status is in 200..299, and the message is not the body text. *)
Lemma fetchJson_throws_on_ok_status :
  let r : Api.Response Api.IntersectionResponse :=
    {| Api.status := 200; Api.text := "<!doctype html>";
       Api.json := Throw (ThrownError SyntaxError "Unexpected token <") |} in
  Api.ok r = true
  ∧ (Api.fetchJson (λ _, Return r) "/api/intersection").2
    = Throw (ThrownError SyntaxError "Unexpected token <")
  ∧ ¬ (∀ (fetch : Api.Fetch Api.IntersectionResponse) path r',
         fetch path = Return r' →
         ((∃ e, (Api.fetchJson fetch path).2 = Throw e) ↔ Api.ok r' = false)
         ∧ (∀ e, (Api.fetchJson fetch path).2 = Throw e →
              catch_message e = Api.text r')).
Proof.
  intros r. repeat split.
  intros Hclaim.
  destruct (Hclaim (λ _, Return r) "/api/intersection" r eq_refl) as [[Hraise _] _].
  assert (Api.ok r = false) as Hok by (apply Hraise; eexists; reflexivity).
  discriminate Hok.
Qed.

(** *** [apply] *)

Section Apply.
Variable fetch : Api.Fetch Api.IntersectionResponse.

(** The call awaited on line 35, for the selection of state [s]. *)
Local Abbreviation awaited s :=
  (Api.fetchIntersection fetch (Some (map FilterId_str (Array_from (selected s))))).

Lemma run_S (n : nat) (s : State) : run fetch (S n) s = step fetch (run fetch n s).
Proof. reflexivity. Qed.

(** After the first step the call is suspended at the [await]: the flag
    is up, the error is cleared and the request is out. *)
Lemma run_1 (s : State) :
  run fetch 1 s =
  {| pc := Awaiting (Array_from (selected s)) (awaited s).2;
     st := setError None (setLoading true s);
     requests := (awaited s).1 |}.
Proof. reflexivity. Qed.

Lemma run_2 (s : State) :
  run fetch 2 s =
  {| pc := match (awaited s).2 with
           | Return r => InThen (Array_from (selected s)) r
           | Throw e => InCatch e
           end;
     st := setError None (setLoading true s);
     requests := (awaited s).1 |}.
Proof. rewrite run_S, run_1. unfold step. simpl. by destruct (mbind _ _). Qed.

Lemma run_3 (s : State) :
  run fetch 3 s =
  {| pc := Finished;
     st := match (awaited s).2 with
           | Return r =>
               {| selected := selected s;
                  graph := {| nodes := apply_nodes r (Array_from (selected s));
                              links := apply_links r |};
                  loading := false; error := None |}
           | Throw e =>
               {| selected := selected s;
                  graph := {| nodes := []; links := [] |};
                  loading := false; error := Some (catch_message e) |}
           end;
     requests := (awaited s).1 |}.
Proof. rewrite run_S, run_2. unfold step. simpl. by destruct (mbind _ _). Qed.

(** A returned call stays returned. *)
Lemma run_finished (n : nat) (s : State) : 3 ≤ n → run fetch n s = run fetch 3 s.
Proof.
  induction 1 as [|n Hle IH]; [done|].
  rewrite run_S, IH, run_3. reflexivity.
Qed.

Lemma apply_success (s : State) (r : Api.IntersectionResponse) :
  (awaited s).2 = Return r →
  apply fetch s =
  {| selected := selected s;
     graph := {| nodes := apply_nodes r (Array_from (selected s));
                 links := apply_links r |};
     loading := false; error := None |}.
Proof. intros E. unfold apply. rewrite run_3. cbn [st]. by rewrite E. Qed.

Lemma apply_failure (s : State) (e : Thrown) :
  (awaited s).2 = Throw e →
  apply fetch s =
  {| selected := selected s;
     graph := {| nodes := []; links := [] |};
     loading := false; error := Some (catch_message e) |}.
Proof. intros E. unfold apply. rewrite run_3. cbn [st]. by rewrite E. Qed.

Lemma apply_selected (s : State) : selected (apply fetch s) = selected s.
Proof. unfold apply. rewrite run_3. cbn [st]. by destruct (awaited s).2. Qed.

(** Every node a call displays carries the selection as its tags, so a
    selection without repetition gives tags without repetition. *)
Lemma apply_group_NoDup (s : State) (node : GraphNode) :
  NoDup (selected s) → node ∈ nodes (graph (apply fetch s)) →
  NoDup (group node).
Proof.
  intros Hnd. unfold apply. rewrite run_3. cbn [st].
  destruct (awaited s).2 as [r|e]; cbn [graph nodes].
  - unfold apply_nodes. rewrite list_elem_of_In, in_map_iff.
    intros (n & <- & _). exact Hnd.
  - by intros ?%elem_of_nil.
Qed.

(** The one request of a call, spelled out. *)
Lemma awaited_requests (s : State) :
  (awaited s).1 =
  [ "/api/intersection" +:+ Api.params (map FilterId_str (selected s)) ].
Proof. reflexivity. Qed.

End Apply.

Lemma lookup_map {A B} (f : A → B) (l : list A) (i : nat) :
  map f l !! i = f <$> l !! i.
Proof.
  revert i. induction l as [|a l IH]; intros [|i]; simpl; auto.
Qed.

Section ApplyClaims.
Variable fetch : Api.Fetch Api.IntersectionResponse.

Local Abbreviation awaited s :=
  (Api.fetchIntersection fetch (Some (map FilterId_str (Array_from (selected s))))).

(** C1. The adapter lines of [apply] turn the entry at each position of
    [result.nodes] into the one display node at that position, made of
    that identifier and of the whole list of requested filters, and the
    pair at each position of [result.edges] into the one link at that
    position, with the pair's two components as source and target;
    nothing is dropped, merged or checked, so both lists keep their
    lengths.  This is the graph [apply] displays.  For nodes a, b, the
    edge (a, b) and the requested filter public, the result is the two
    nodes tagged public and the link from a to b. *)
Theorem adapter_pointwise (r : Api.IntersectionResponse)
    (requestedFilters : list FilterId)
    (ns : list string) (es : list (string * string)) :
  Api.nodes r = Some ns → Api.edges r = Some es →
  length (apply_nodes r requestedFilters) = length ns
  ∧ (∀ i, apply_nodes r requestedFilters !! i
          = (λ n, {| id := n; group := requestedFilters |}) <$> ns !! i)
  ∧ length (apply_links r) = length es
  ∧ (∀ i, apply_links r !! i
          = (λ e, {| source := e.1; target := e.2 |}) <$> es !! i)
  ∧ (∀ s, Array_from (selected s) = requestedFilters →
          (awaited s).2 = Return r →
          graph (apply fetch s)
          = {| nodes := apply_nodes r requestedFilters;
               links := apply_links r |})
  ∧ (∀ o,
       let result := {| Api.options := o; Api.nodes := Some ["a"; "b"];
                        Api.edges := Some [("a", "b")] |} in
       {| nodes := apply_nodes result [public]; links := apply_links result |}
       = {| nodes := [ {| id := "a"; group := [public] |};
                       {| id := "b"; group := [public] |} ];
            links := [ {| source := "a"; target := "b" |} ] |}).
Proof.
  intros Hn He. unfold apply_nodes, apply_links. rewrite Hn, He. simpl.
  repeat split.
  - apply length_map.
  - intros i. apply lookup_map.
  - apply length_map.
  - intros i. rewrite lookup_map. destruct (es !! i) as [[a b]|]; reflexivity.
  - intros s Hs Hr. rewrite (apply_success fetch s r Hr).
    unfold apply_nodes, apply_links. rewrite Hn, He, Hs. reflexivity.
Qed.

(** C2. A call of [apply] whose awaited request fails ends with the
    error set to the message text of the failure and with the empty
    graph, whatever graph was displayed before.  When an error object is
    thrown, of whatever class, the error is its message; when another
    value is thrown, it is the string of that value; when the transport
    rejects the request, it is the message of the rejection; when a
    response arrives with a status outside 200..299, it is the body text
    of the response. *)
Theorem apply_failure_state (s : State) :
  (∀ name message, (awaited s).2 = Throw (ThrownError name message) →
        error (apply fetch s) = Some message
        ∧ graph (apply fetch s) = {| nodes := []; links := [] |})
  ∧ (∀ str, (awaited s).2 = Throw (ThrownOther str) →
        error (apply fetch s) = Some str
        ∧ graph (apply fetch s) = {| nodes := []; links := [] |})
  ∧ (∀ url name message, (awaited s).1 = [url] →
        fetch url = Throw (ThrownError name message) →
        error (apply fetch s) = Some message
        ∧ graph (apply fetch s) = {| nodes := []; links := [] |})
  ∧ (∀ url str, (awaited s).1 = [url] →
        fetch url = Throw (ThrownOther str) →
        error (apply fetch s) = Some str
        ∧ graph (apply fetch s) = {| nodes := []; links := [] |})
  ∧ (∀ url r, (awaited s).1 = [url] → fetch url = Return r →
        Api.ok r = false →
        error (apply fetch s) = Some (Api.text r)
        ∧ graph (apply fetch s) = {| nodes := []; links := [] |}).
Proof.
  assert (Hawaited : ∀ url e, (awaited s).1 = [url] → fetch url = Throw e →
            (awaited s).2 = Throw e).
  { intros url e Hurl Hf. rewrite awaited_requests in Hurl.
    injection Hurl as <-. by apply fetchJson_rejected. }
  split; [|split; [|split; [|split]]].
  - intros name message E. by rewrite (apply_failure fetch s _ E).
  - intros str E. by rewrite (apply_failure fetch s _ E).
  - intros url name message Hurl Hf.
    by rewrite (apply_failure fetch s _ (Hawaited url _ Hurl Hf)).
  - intros url str Hurl Hf.
    by rewrite (apply_failure fetch s _ (Hawaited url _ Hurl Hf)).
  - intros url r Hurl Hf Hok. rewrite awaited_requests in Hurl.
    injection Hurl as <-.
    assert ((awaited s).2 = Throw (ThrownError Error (Api.text r))) as E
      by (by apply fetchJson_not_ok).
    by rewrite (apply_failure fetch s _ E).
Qed.


(** C8. A call of [apply] goes through the phases Idle, Loading, then
    Success or Failure, and Idle again: its first step raises the flag
    and sends the request, the flag stays up while the request is in
    flight and while the answer or the failure is handled, and the step
    that handles either one lowers the flag and returns.  The call is in
    phase Success exactly when the awaited request returned.  From the
    third step on nothing moves, so a call never rests in Loading. *)
Theorem apply_phases (s : State) :
  phase (run fetch 0 s) = Idle
  ∧ (phase (run fetch 1 s) = Loading
     ∧ loading (st (run fetch 1 s)) = true
     ∧ length (requests (run fetch 1 s)) = 1)
  ∧ ((phase (run fetch 2 s) = Success ∨ phase (run fetch 2 s) = Failure)
     ∧ (phase (run fetch 2 s) = Success ↔ ∃ r, (awaited s).2 = Return r)
     ∧ (phase (run fetch 2 s) = Failure ↔ ∃ e, (awaited s).2 = Throw e)
     ∧ loading (st (run fetch 2 s)) = true)
  ∧ (phase (run fetch 3 s) = Idle
     ∧ pc (run fetch 3 s) = Finished
     ∧ loading (st (run fetch 3 s)) = false)
  ∧ (∀ n, 3 ≤ n → run fetch n s = run fetch 3 s)
  ∧ loading (apply fetch s) = false.
Proof.
  split; [reflexivity|].
  split; [rewrite run_1; repeat split|].
  split.
  { rewrite run_2. unfold phase. cbn [pc st].
    destruct (awaited s).2 as [r|e]; repeat split; eauto; try (intros [? ?]); done. }
  split.
  { rewrite run_3. unfold phase. cbn [pc st].
    destruct (awaited s).2; repeat split. }
  split; [intros n Hn; by apply run_finished|].
  unfold apply. rewrite run_3. cbn [st]. by destruct (awaited s).2.
Qed.

(** C9, as the code has it.  The graph a call of [apply] displays is a
    function of the selection, with its iteration order, and of the
    backend: two calls made with the same selection in the same order
    display the same graph, whatever the rest of the state, and calling
    [apply] again right after a call displays the same graph again.  Two
    selections with the same members in another order are requested in
    another order; when the backend answers both requests alike, the two
    graphs have the same node identifiers and the same links, and every
    node is tagged with the same set of filters. *)
Theorem apply_same_selection (s1 s2 : State) :
  (selected s1 = selected s2 →
     graph (apply fetch s1) = graph (apply fetch s2)
     ∧ graph (apply fetch (apply fetch s1)) = graph (apply fetch s1))
  ∧ (members (selected s1) = members (selected s2) →
     (awaited s1).2 = (awaited s2).2 →
     links (graph (apply fetch s1)) = links (graph (apply fetch s2))
     ∧ map App.id (nodes (graph (apply fetch s1)))
       = map App.id (nodes (graph (apply fetch s2)))
     ∧ ∀ n1 n2, n1 ∈ nodes (graph (apply fetch s1)) →
                n2 ∈ nodes (graph (apply fetch s2)) →
                list_to_set (C := gset FilterId) (group n1)
                = list_to_set (group n2)).
Proof.
  split.
  - assert (Hsel : ∀ a b, selected a = selected b →
              graph (apply fetch a) = graph (apply fetch b)).
    { intros a b E. unfold apply. rewrite !run_3. cbn [st]. rewrite E.
      by destruct (Api.fetchIntersection _ _).2. }
    intros E. split; [by apply Hsel|]. apply Hsel. apply apply_selected.
  - intros Hmem Hsame. unfold apply. rewrite !run_3. cbn [st].
    rewrite Hsame. destruct (awaited s2).2 as [r|e]; cbn [graph nodes links].
    + split; [done|]. unfold apply_nodes. split.
      * rewrite !map_map. reflexivity.
      * intros n1 n2 H1 H2.
        apply list_elem_of_In, in_map_iff in H1 as (i1 & <- & _).
        apply list_elem_of_In, in_map_iff in H2 as (i2 & <- & _).
        exact Hmem.
    + split; [done|]. split; [done|]. by intros n1 n2 ?%elem_of_nil.
Qed.

(** C10. When the request of a call of [apply] is answered with a status
    in 200..299 and a body that parses, the call does not fail: the error
    stays cleared and the flag is lowered.  A [nodes] field that is
    missing or null gives an empty list of display nodes and an [edges]
    field that is missing or null gives an empty list of links; a field
    that is present is displayed as usual. *)
Theorem apply_missing_fields (s : State) (url : string)
    (resp : Api.Response Api.IntersectionResponse)
    (r : Api.IntersectionResponse) :
  (awaited s).1 = [url] → fetch url = Return resp →
  Api.ok resp = true → Api.json resp = Return r →
  error (apply fetch s) = None
  ∧ loading (apply fetch s) = false
  ∧ (Api.nodes r = None → nodes (graph (apply fetch s)) = [])
  ∧ (Api.edges r = None → links (graph (apply fetch s)) = [])
  ∧ (∀ ns, Api.nodes r = Some ns →
       nodes (graph (apply fetch s))
       = map (λ n, {| id := n; group := Array_from (selected s) |}) ns)
  ∧ (∀ es, Api.edges r = Some es →
       links (graph (apply fetch s))
       = map (λ e, {| source := e.1; target := e.2 |}) es).
Proof.
  intros Hurl Hf Hok Hjson.
  assert (Hr : (awaited s).2 = Return r).
  { rewrite awaited_requests in Hurl. injection Hurl as <-.
    exact (eq_trans (fetchJson_ok fetch _ resp Hf Hok) Hjson). }
  rewrite (apply_success fetch s r Hr). cbn [error loading graph nodes links].
  unfold apply_nodes, apply_links.
  repeat split.
  - by intros ->.
  - by intros ->.
  - by intros ns ->.
  - intros es ->. cbn [default]. apply map_ext. by intros [a b].
Qed.

End ApplyClaims.

(** *** The claims at concrete inputs *)

Lemma adapter_pointwise_witness :
  graph (apply
    (λ _, Return {| Api.status := 200; Api.text := "{...}";
                    Api.json := Return {| Api.options := ["public"];
                                          Api.nodes := Some ["a"; "b"];
                                          Api.edges := Some [("a", "b")] |} |})
    (toggle public initial))
  = {| nodes := [ {| id := "a"; group := [public] |};
                  {| id := "b"; group := [public] |} ];
       links := [ {| source := "a"; target := "b" |} ] |}.
Proof.
  destruct (adapter_pointwise
    (λ _, Return {| Api.status := 200; Api.text := "{...}";
                    Api.json := Return {| Api.options := ["public"];
                                          Api.nodes := Some ["a"; "b"];
                                          Api.edges := Some [("a", "b")] |} |})
    {| Api.options := ["public"]; Api.nodes := Some ["a"; "b"];
       Api.edges := Some [("a", "b")] |}
    [public] ["a"; "b"] [("a", "b")])
    as (_ & _ & _ & _ & H & _).
  - reflexivity.
  - reflexivity.
  - apply (H (toggle public initial)); reflexivity.
Defined.

Lemma apply_failure_state_witness :
  let stale :=
    setGraph {| nodes := [ {| id := "a"; group := [] |} ]; links := [] |} initial in
  let answered : Api.Fetch Api.IntersectionResponse :=
    λ _, Return {| Api.status := 500; Api.text := "boom";
                   Api.json := Throw (ThrownError SyntaxError "Unexpected token b") |} in
  let offline : Api.Fetch Api.IntersectionResponse :=
    λ _, Throw (ThrownError TypeError "Failed to fetch") in
  (error (apply answered stale) = Some "boom"
   ∧ graph (apply answered stale) = {| nodes := []; links := [] |})
  ∧ (error (apply offline stale) = Some "Failed to fetch"
     ∧ graph (apply offline stale) = {| nodes := []; links := [] |}).
Proof.
  intros stale answered offline. split.
  - destruct (apply_failure_state answered stale) as (_ & _ & _ & _ & H).
    apply (H "/api/intersection"
             {| Api.status := 500; Api.text := "boom";
                Api.json := Throw (ThrownError SyntaxError "Unexpected token b") |});
      reflexivity.
  - destruct (apply_failure_state offline stale) as (_ & _ & H & _).
    apply (H "/api/intersection" TypeError "Failed to fetch"); reflexivity.
Defined.


Lemma apply_phases_witness :
  run (λ _, Throw (ThrownError TypeError "Failed to fetch")) 5 initial
  = run (λ _, Throw (ThrownError TypeError "Failed to fetch")) 3 initial.
Proof.
  destruct (apply_phases
    (λ _, Throw (ThrownError TypeError "Failed to fetch")) initial)
    as (_ & _ & _ & _ & H & _).
  apply H. lia.
Defined.

Lemma apply_same_selection_witness :
  let fetch : Api.Fetch Api.IntersectionResponse :=
    λ _, Return {| Api.status := 200; Api.text := "{...}";
                   Api.json := Return {| Api.options := ["sink"];
                                         Api.nodes := Some ["db"];
                                         Api.edges := Some [("db", "db")] |} |} in
  graph (apply fetch (toggle sink initial))
  = graph (apply fetch (setError (Some "old") (toggle sink initial)))
  ∧ links (graph (apply fetch (toggle_all [public; sink] initial)))
    = links (graph (apply fetch (toggle_all [sink; public] initial))).
Proof.
  intros fetch. split.
  - destruct (apply_same_selection fetch (toggle sink initial)
                (setError (Some "old") (toggle sink initial))) as [H _].
    destruct H as [H _]; [reflexivity|exact H].
  - destruct (apply_same_selection fetch (toggle_all [public; sink] initial)
                (toggle_all [sink; public] initial)) as [_ H].
    destruct H as [H _]; [vm_compute; reflexivity|reflexivity|exact H].
Defined.

(** C9, as stated, fails.  A selection is a set, and the same set can be
    held in two insertion orders: after public, sink are checked, two
    more clicks on public leave the same two filters selected, in the
    order sink, public.  Against a backend that answers every request
    with the same body, the two selections send different requests and
    display different graphs, the tags of the node being listed in the
    other order. *)
Lemma apply_same_members_differs :
  let fetch : Api.Fetch Api.IntersectionResponse :=
    λ _, Return {| Api.status := 200; Api.text := "{...}";
                   Api.json := Return {| Api.options := [];
                                         Api.nodes := Some ["a"];
                                         Api.edges := None |} |} in
  let s0 := toggle_all [public; sink] initial in
  let s1 := toggle public (toggle public s0) in
  members (selected s0) = members (selected s1)
  ∧ requests (run fetch 3 s0) ≠ requests (run fetch 3 s1)
  ∧ graph (apply fetch s0) ≠ graph (apply fetch s1)
  ∧ ¬ (∀ (fetch : Api.Fetch Api.IntersectionResponse) (a b : State),
         members (selected a) = members (selected b) →
         graph (apply fetch a) = graph (apply fetch b)).
Proof.
  intros fetch s0 s1.
  assert (Hmem : members (selected s0) = members (selected s1))
    by (vm_compute; reflexivity).
  assert (Hgraph : graph (apply fetch s0) ≠ graph (apply fetch s1))
    by (vm_compute; discriminate).
  split; [exact Hmem|]. split; [vm_compute; discriminate|].
  split; [exact Hgraph|].
  intros Hclaim. apply Hgraph. by apply Hclaim.
Qed.

Lemma apply_missing_fields_witness :
  let fetch : Api.Fetch Api.IntersectionResponse :=
    λ _, Return {| Api.status := 200; Api.text := "{}";
                   Api.json := Return {| Api.options := [];
                                         Api.nodes := None;
                                         Api.edges := None |} |} in
  error (apply fetch initial) = None
  ∧ graph (apply fetch initial) = {| nodes := []; links := [] |}.
Proof.
  intros fetch.
  destruct (apply_missing_fields fetch initial "/api/intersection"
    {| Api.status := 200; Api.text := "{}";
       Api.json := Return {| Api.options := []; Api.nodes := None;
                             Api.edges := None |} |}
    {| Api.options := []; Api.nodes := None; Api.edges := None |})
    as (He & _ & Hn & Hl & _); try reflexivity.
  split; [exact He|].
  specialize (Hn eq_refl). specialize (Hl eq_refl).
  destruct (graph (apply fetch initial)) as [ns ls]. simpl in Hn, Hl.
  by rewrite Hn, Hl.
Defined.

(** Malformed input passes through the adapter: a repeated node and an
    edge between unknown nodes are displayed as they come. *)
Example adapter_keeps_malformed :
  let result := {| Api.options := []; Api.nodes := Some ["a"; "a"];
                   Api.edges := Some [("x", "y")] |} in
  apply_nodes result [] = [ {| id := "a"; group := [] |}; {| id := "a"; group := [] |} ]
  ∧ apply_links result = [ {| source := "x"; target := "y" |} ].
Proof. split; reflexivity. Qed.

(** The display follows the iteration order of the selection: the same
    two filters selected in the other order are requested and tagged in
    the other order.  The colour, which reads only the number of tags,
    is the same. *)
Example apply_follows_insertion_order :
  let fetch : Api.Fetch Api.IntersectionResponse :=
    λ _, Return {| Api.status := 200; Api.text := "{...}";
                   Api.json := Return {| Api.options := [];
                                         Api.nodes := Some ["a"];
                                         Api.edges := None |} |} in
  nodes (graph (apply fetch (toggle_all [public; sink] initial)))
  = [ {| id := "a"; group := [public; sink] |} ]
  ∧ nodes (graph (apply fetch (toggle_all [sink; public] initial)))
    = [ {| id := "a"; group := [sink; public] |} ]
  ∧ nodeColor {| id := "a"; group := [public; sink] |}
    = nodeColor {| id := "a"; group := [sink; public] |}.
Proof. repeat split. Qed.

(** ** Further properties of the sources *)

(** *** [encodeURIComponent] and the query string *)

Lemma occurrences_app (c : ascii) (a b : string) :
  occurrences c (a +:+ b) = occurrences c a + occurrences c b.
Proof.
  induction a as [|d a IH]; simpl; [done|]. rewrite IH. lia.
Qed.

Lemma length_app (a b : string) :
  String.length (a +:+ b) = String.length a + String.length b.
Proof. induction a as [|d a IH]; simpl; [done|]. by rewrite IH. Qed.

(** Both hex digits of an escape are unreserved characters. *)
Lemma hex_digits_unreserved (c : ascii) :
  is_unreserved (hex_digit (N_of_ascii c / 16)) = true
  ∧ is_unreserved (hex_digit (N_of_ascii c mod 16)) = true.
Proof. destruct c as [[] [] [] [] [] [] [] []]; split; reflexivity. Qed.

Lemma percent_reserved : is_unreserved "%" = false.
Proof. reflexivity. Qed.

Lemma N_of_hex_digit (n : N) :
  (n < 16)%N →
  N_of_ascii (hex_digit n) = if (n <? 10)%N then (48 + n)%N else (55 + n)%N.
Proof.
  intros Hn. unfold hex_digit.
  destruct (n <? 10)%N; apply N_ascii_embedding; lia.
Qed.

Lemma hex_digit_inj (a b : N) :
  (a < 16)%N → (b < 16)%N → hex_digit a = hex_digit b → a = b.
Proof.
  intros Ha Hb E. apply (f_equal N_of_ascii) in E.
  rewrite !N_of_hex_digit in E by done.
  destruct (a <? 10)%N eqn:Ea, (b <? 10)%N eqn:Eb;
    rewrite ?N.ltb_lt, ?N.ltb_ge in *; lia.
Qed.

Lemma percent_byte_inj (c d : ascii) : percent_byte c = percent_byte d → c = d.
Proof.
  unfold percent_byte. intros E. injection E as Ehi Elo.
  pose proof (N_ascii_bounded c) as Hc. pose proof (N_ascii_bounded d) as Hd.
  apply hex_digit_inj in Ehi; [|apply N.Div0.div_lt_upper_bound; lia..].
  apply hex_digit_inj in Elo; [|apply N.mod_lt; lia..].
  rewrite <- (ascii_N_embedding c), <- (ascii_N_embedding d). f_equal.
  rewrite (N.div_mod (N_of_ascii c) 16), (N.div_mod (N_of_ascii d) 16) by lia.
  by rewrite Ehi, Elo.
Qed.

(** The encoding of one character: itself, or its three-character escape. *)
Lemma encodeURIComponent_cons (c : ascii) (s : string) :
  encodeURIComponent (String c s)
  = if is_unreserved c then String c (encodeURIComponent s)
    else String "%" (String (hex_digit (N_of_ascii c / 16))
           (String (hex_digit (N_of_ascii c mod 16)) (encodeURIComponent s))).
Proof. simpl. by destruct (is_unreserved c). Qed.

(** A character that [encodeURIComponent] escapes, other than the
    percent sign itself, does not occur in any of its outputs. *)
Lemma escaped_absent (c : ascii) (s : string) :
  is_unreserved c = false → c ≠ "%"%char →
  occurrences c (encodeURIComponent s) = 0.
Proof.
  intros Hc Hpct. induction s as [|d s IH]; [done|].
  rewrite encodeURIComponent_cons.
  destruct (hex_digits_unreserved d) as [Hhi Hlo].
  destruct (is_unreserved d) eqn:Hd; cbn [occurrences]; rewrite IH.
  - rewrite decide_False; [done|]. intros ->. congruence.
  - rewrite !decide_False; [done|..]; intros E; subst c; congruence.
Qed.

Lemma occurrences_In (c : ascii) (s : string) :
  In c (list_ascii_of_string s) → 0 < occurrences c s.
Proof.
  induction s as [|d s IH]; simpl; [done|].
  intros [->|Hin].
  - rewrite decide_True by done. lia.
  - specialize (IH Hin). lia.
Qed.

Lemma encodeURIComponent_inj_aux (s t : string) :
  encodeURIComponent s = encodeURIComponent t → s = t.
Proof.
  revert t. induction s as [|c s IH]; intros [|d t] E; [done| | |].
  - rewrite encodeURIComponent_cons in E.
    destruct (is_unreserved d); discriminate E.
  - rewrite encodeURIComponent_cons in E.
    destruct (is_unreserved c); discriminate E.
  - rewrite !encodeURIComponent_cons in E.
    destruct (is_unreserved c) eqn:Hc, (is_unreserved d) eqn:Hd.
    + injection E as -> E. f_equal. by apply IH.
    + injection E as -> E. rewrite percent_reserved in Hc. discriminate Hc.
    + injection E as <- E. rewrite percent_reserved in Hd. discriminate Hd.
    + injection E as Ehi Elo E.
      assert (c = d) as ->.
      { apply percent_byte_inj. unfold percent_byte. by rewrite Ehi, Elo. }
      f_equal. by apply IH.
Qed.


(** Every character of an output of [encodeURIComponent] is an
    unreserved character or a percent sign; so the separators of a query
    string (ampersand, equals sign, question mark, hash) never occur in
    an encoded option, whatever the option holds. *)
Theorem encodeURIComponent_alphabet (s : string) :
  (∀ c, In c (list_ascii_of_string (encodeURIComponent s)) →
        is_unreserved c = true ∨ c = "%"%char)
  ∧ (∀ c, In c ["&"; "="; "?"; "#"]%char →
          occurrences c (encodeURIComponent s) = 0).
Proof.
  split.
  - intros c Hin. apply occurrences_In in Hin.
    destruct (is_unreserved c) eqn:Hc; [by left|right].
    destruct (decide (c = "%"%char)) as [|Hne]; [done|].
    rewrite (escaped_absent c s Hc Hne) in Hin. lia.
  - intros c Hin. apply escaped_absent.
    + simpl in Hin. destruct Hin as [<-|[<-|[<-|[<-|[]]]]]; reflexivity.
    + simpl in Hin. destruct Hin as [<-|[<-|[<-|[<-|[]]]]]; discriminate.
Qed.

Lemma encodeURIComponent_alphabet_witness :
  occurrences "&" (encodeURIComponent "a&b=c") = 0.
Proof.
  destruct (encodeURIComponent_alphabet "a&b=c") as [_ H].
  apply H. simpl. tauto.
Defined.

(** [encodeURIComponent] loses nothing: two strings with the same
    encoding are the same string. *)
Theorem encodeURIComponent_injective (s t : string) :
  encodeURIComponent s = encodeURIComponent t ↔ s = t.
Proof.
  split.
  - apply encodeURIComponent_inj_aux.
  - intros ->. reflexivity.
Qed.


(** [join] puts the separator before every element but the first. *)
Lemma join_cons (sep p : string) (ps : list string) :
  join sep (p :: ps)
  = p +:+ match ps with [] => EmptyString | _ => sep +:+ join sep ps end.
Proof.
  destruct ps as [|q ps]; [|reflexivity].
  cbn [join]. induction p as [|c p IH]; [done|].
  change (String c p +:+ EmptyString) with (String c (p +:+ EmptyString)).
  by rewrite <- IH.
Qed.

Lemma occurrences_join (c : ascii) (sep : string) (ps : list string) :
  occurrences c (join sep ps)
  = list_sum (map (occurrences c) ps) + (length ps - 1) * occurrences c sep.
Proof.
  induction ps as [|p ps IH]; [done|].
  rewrite join_cons, occurrences_app. cbn [map list_sum length].
  destruct ps as [|q ps]; [simpl; lia|].
  rewrite occurrences_app, IH. simpl. lia.
Qed.

(** One parameter of the query string. *)
Local Abbreviation parameter o := ("options=" +:+ encodeURIComponent o).

Lemma occurrences_parameters (c : ascii) (k : nat) (options : list string) :
  In c ["&"; "="; "?"; "#"]%char →
  occurrences c "options=" = k →
  list_sum (map (occurrences c) (map (λ o, parameter o) options))
  = k * length options.
Proof.
  intros Hc Hk. induction options as [|o options IH]; [simpl; lia|].
  unfold list_sum in *. cbn [map fold_right length].
  rewrite IH, occurrences_app, Hk.
  assert (occurrences c (encodeURIComponent o) = 0) as ->; [|lia].
  apply escaped_absent.
  - simpl in Hc. destruct Hc as [<-|[<-|[<-|[<-|[]]]]]; reflexivity.
  - simpl in Hc. destruct Hc as [<-|[<-|[<-|[<-|[]]]]]; discriminate.
Qed.

(** An unpaired surrogate, here the three bytes ED A0 80 that would
    stand for the code unit D800, is not well formed; the characters of
    a well-formed string can be of any length. *)
Example well_formed_examples :
  well_formed (String (ascii_of_N 237) (String (ascii_of_N 160)
                 (String (ascii_of_N 128) EmptyString))) = false
  ∧ well_formed "a&b=c é … 𝄞" = true
  ∧ encodeURIComponent "é…𝄞" = "%C3%A9%E2%80%A6%F0%9D%84%9E".
Proof. repeat split. Qed.

(** X1. For options that are well-formed strings, the arguments on which
    [encodeURIComponent] returns, and whatever characters they hold, the
    query string built by [fetchIntersection] has one equals sign for
    each option, one ampersand between consecutive options, a single
    question mark in front when there is an option at all, and no hash:
    an option cannot add, end or cut a parameter. *)
Theorem params_separators (options : list string) :
  Forall (λ o, well_formed o = true) options →
  occurrences "=" (Api.params options) = length options
  ∧ occurrences "&" (Api.params options) = length options - 1
  ∧ occurrences "?" (Api.params options) = Nat.min 1 (length options)
  ∧ occurrences "#" (Api.params options) = 0.
Proof.
  intros _. destruct options as [|o options]; [done|].
  unfold Api.params. cbn [length].
  set (l := o :: options).
  assert (Hlen : length l = S (length options)) by done.
  repeat split; rewrite occurrences_app, occurrences_join.
  - rewrite (occurrences_parameters "=" 1) by (simpl; tauto).
    simpl occurrences. lia.
  - rewrite (occurrences_parameters "&" 0) by (simpl; tauto).
    rewrite length_map. simpl occurrences. lia.
  - rewrite (occurrences_parameters "?" 0) by (simpl; tauto).
    simpl occurrences. lia.
  - rewrite (occurrences_parameters "#" 0) by (simpl; tauto).
    simpl occurrences. lia.
Qed.

(** A string without ampersand, followed by nothing or by an ampersand
    and more, is split in one way only. *)
Lemma split_at_ampersand (a b x y : string) :
  occurrences "&" a = 0 → occurrences "&" b = 0 →
  (x = EmptyString ∨ ∃ x', x = String "&" x') →
  (y = EmptyString ∨ ∃ y', y = String "&" y') →
  a +:+ x = b +:+ y → a = b ∧ x = y.
Proof.
  revert b. induction a as [|c a IH]; intros [|d b] Ha Hb Hx Hy E; simpl in *.
  - done.
  - destruct Hx as [->|[x' ->]]; [discriminate E|].
    injection E as <- _. rewrite decide_True in Hb by done. lia.
  - destruct Hy as [->|[y' ->]]; [discriminate E|].
    injection E as -> _. rewrite decide_True in Ha by done. lia.
  - injection E as -> E.
    destruct (decide (d = "&"%char)); [lia|].
    destruct (IH b) as [-> ->]; done.
Qed.

Lemma join_ampersand_inj (ps qs : list string) :
  Forall (λ p, occurrences "&" p = 0) ps →
  Forall (λ q, occurrences "&" q = 0) qs →
  ps ≠ [] → qs ≠ [] →
  join "&" ps = join "&" qs → ps = qs.
Proof.
  revert qs. induction ps as [|p ps IH]; intros [|q qs] Hps Hqs Hp Hq E;
    try done.
  apply Forall_cons in Hps as [Hp0 Hps]. apply Forall_cons in Hqs as [Hq0 Hqs].
  rewrite !join_cons in E.
  apply split_at_ampersand in E as [-> E]; try done.
  - f_equal. destruct ps as [|p' ps], qs as [|q' qs]; try done.
    apply IH; try done. by injection E.
  - destruct ps; [by left|right; eexists; reflexivity].
  - destruct qs; [by left|right; eexists; reflexivity].
Qed.

Lemma params_separators_witness :
  occurrences "&" (Api.params ["a&b=c"; "é#?"; "sink"]) = 2
  ∧ occurrences "=" (Api.params ["a&b=c"; "é#?"; "sink"]) = 3.
Proof.
  destruct (params_separators ["a&b=c"; "é#?"; "sink"]) as (He & Ha & _).
  - repeat constructor.
  - split; [exact Ha|exact He].
Defined.

(** X2. The request path tells the options: for two lists of well-formed
    strings, the arguments on which [encodeURIComponent] returns,
    [fetchIntersection] builds the same query string only when they are
    the same list, with the same strings in the same order. *)
Theorem params_injective (l1 l2 : list string) :
  Forall (λ o, well_formed o = true) l1 →
  Forall (λ o, well_formed o = true) l2 →
  Api.params l1 = Api.params l2 ↔ l1 = l2.
Proof.
  intros _ _. split; [|by intros ->].
  assert (Hfree : ∀ l : list string,
            Forall (λ p, occurrences "&" p = 0) (map (λ o, parameter o) l)).
  { intros l. apply Forall_forall. intros p Hp.
    apply list_elem_of_In, in_map_iff in Hp as [o [<- _]].
    rewrite occurrences_app. rewrite escaped_absent; done. }
  assert (Hinj : ∀ a b : list string,
            map (λ o, parameter o) a = map (λ o, parameter o) b → a = b).
  { induction a as [|x a IH]; intros [|y b] E; try done.
    injection E as Ex E. f_equal; [|by apply IH].
    by apply encodeURIComponent_inj_aux. }
  destruct l1 as [|a l1], l2 as [|b l2]; try done.
  unfold Api.params. cbn [length]. intros E. injection E as E.
  apply Hinj. apply join_ampersand_inj; try done; apply Hfree.
Qed.

Lemma params_injective_witness :
  Api.params ["a&b"; "c"] ≠ Api.params ["a"; "b&c"].
Proof.
  intros E.
  apply (params_injective ["a&b"; "c"] ["a"; "b&c"]) in E.
  - discriminate E.
  - repeat constructor.
  - repeat constructor.
Defined.



(** *** Clicks on the check boxes *)

Lemma Set_has_toggle_other (f id : FilterId) (s : JsSet FilterId) :
  f ≠ id → Set_has f (toggle_updater id s) = Set_has f s.
Proof.
  intros Hne. unfold Set_has. apply bool_decide_ext.
  rewrite <- !(elem_of_list_to_set (C := gset FilterId)).
  fold (members (toggle_updater id s)). fold (members s).
  rewrite members_toggle_updater.
  destruct (Set_has id s).
  - rewrite elem_of_difference, elem_of_singleton. tauto.
  - rewrite elem_of_union, elem_of_singleton. tauto.
Qed.

(** A sequence of clicks acts on the selection only. *)
Lemma toggle_all_fields (ids : list FilterId) (s : State) :
  selected (toggle_all ids s)
  = fold_left (λ sel id, toggle_updater id sel) ids (selected s)
  ∧ graph (toggle_all ids s) = graph s
  ∧ loading (toggle_all ids s) = loading s
  ∧ error (toggle_all ids s) = error s.
Proof.
  revert s. induction ids as [|id ids IH]; intros s; [done|].
  cbn [toggle_all fold_left]. fold (toggle_all ids (toggle id s)).
  destruct (IH (toggle id s)) as (-> & -> & -> & ->). done.
Qed.

Lemma toggle_all_NoDup (ids : list FilterId) (s : State) :
  NoDup (selected s) → NoDup (selected (toggle_all ids s)).
Proof.
  revert s. induction ids as [|id ids IH]; intros s Hnd; [done|].
  apply (IH (toggle id s)). by apply toggle_NoDup.
Qed.

(** X4. After any sequence of clicks, from any state, a check box is
    checked exactly when it was checked before and clicked an even
    number of times, or unchecked before and clicked an odd number of
    times; so the order of the clicks does not matter, and the other
    boxes do not matter. *)
Theorem toggle_all_parity (ids : list FilterId) (s : State) (f : FilterId) :
  checkbox_checked f (toggle_all ids s)
  = xorb (checkbox_checked f s) (Nat.odd (count_occ FilterId_eq_dec ids f)).
Proof.
  revert s. induction ids as [|id ids IH]; intros s.
  - simpl. by destruct (checkbox_checked f s).
  - cbn [toggle_all fold_left]. fold (toggle_all ids (toggle id s)).
    rewrite IH. unfold checkbox_checked. cbn [toggle setSelected selected].
    destruct (FilterId_eq_dec id f) as [->|Hne].
    + rewrite count_occ_cons_eq by done.
      rewrite Set_has_toggle_updater, Nat.odd_succ, <- Nat.negb_odd.
      by destruct (Set_has f (selected s)), (Nat.odd _).
    + rewrite count_occ_cons_neq by done.
      by rewrite Set_has_toggle_other by done.
Qed.

(** *** Calls of [apply] and what they leave *)

Section ApplyMore.
Variable fetch : Api.Fetch Api.IntersectionResponse.

Local Abbreviation awaited s :=
  (Api.fetchIntersection fetch (Some (map FilterId_str (Array_from (selected s))))).

(** The state a call leaves when boxes are clicked during the flight. *)
Lemma apply_with_clicks_eq (ids : list FilterId) (s : State) :
  apply_with_clicks fetch ids s =
  {| selected := selected (toggle_all ids s);
     graph := graph (apply fetch s);
     loading := false;
     error := error (apply fetch s) |}.
Proof.
  unfold apply_with_clicks. rewrite run_1. unfold during. cbn [pc st requests].
  destruct (toggle_all_fields ids (setError None (setLoading true s)))
    as (Hsel & Hg & Hl & He).
  destruct (toggle_all_fields ids s) as (Hsel' & _).
  cbn [selected graph loading error setError setLoading] in Hsel, Hg, Hl, He.
  rewrite <- Hsel' in Hsel.
  destruct (toggle_all ids (setError None (setLoading true s)))
    as [sel g l e].
  cbn [selected graph loading error] in Hsel, Hg, Hl, He. subst sel g l e.
  unfold apply. rewrite run_3. cbn [st].
  destruct (awaited s).2 as [r|e]; reflexivity.
Qed.

Lemma apply_no_clicks (s : State) : apply_with_clicks fetch [] s = apply fetch s.
Proof.
  rewrite apply_with_clicks_eq. unfold apply. rewrite run_3. cbn [st].
  by destruct (awaited s).2.
Qed.

(** X5. A call of [apply] works on the selection it found when it was
    invoked: boxes clicked while the request is in flight end up in the
    selection, but the graph displayed, the tags of its nodes and the
    error are those of the call without the clicks.  So the tags on
    display can differ from the boxes that are checked. *)
Theorem apply_uses_snapshot (ids : list FilterId) (s : State) :
  selected (apply_with_clicks fetch ids s) = selected (toggle_all ids s)
  ∧ graph (apply_with_clicks fetch ids s) = graph (apply fetch s)
  ∧ error (apply_with_clicks fetch ids s) = error (apply fetch s)
  ∧ loading (apply_with_clicks fetch ids s) = false
  ∧ (∀ n, n ∈ nodes (graph (apply_with_clicks fetch ids s)) →
          group n = Array_from (selected s)).
Proof.
  rewrite apply_with_clicks_eq. cbn [selected graph loading error].
  repeat split.
  unfold apply. rewrite run_3. cbn [st].
  destruct (awaited s).2 as [r|e]; cbn [graph nodes]; intros n Hn.
  - unfold apply_nodes in Hn.
    apply list_elem_of_In, in_map_iff in Hn as (i & <- & _). reflexivity.
  - by apply elem_of_nil in Hn.
Qed.

(** X6. The state a call of [apply] leaves depends on the selection and
    on the backend only: nothing of the graph, error or flag from before
    the call survives it, and a second call right after the first leaves
    the state as the first left it. *)
Theorem apply_idempotent (s s' : State) :
  selected s' = selected s →
  apply fetch s' = apply fetch s
  ∧ apply fetch (apply fetch s) = apply fetch s.
Proof.
  assert (Hsel : ∀ a b, selected a = selected b → apply fetch a = apply fetch b).
  { intros a b E. unfold apply. rewrite !run_3. cbn [st]. rewrite E.
    by destruct (Api.fetchIntersection _ _).2. }
  intros E. split; [by apply Hsel|]. apply Hsel. apply apply_selected.
Qed.

End ApplyMore.

(** *** The states the component rests in *)

Lemma FilterId_list_short (l : list FilterId) : NoDup l → length l ≤ 3.
Proof.
  intros Hnd. change 3 with (length [public; sink; vuln]).
  apply submseteq_length, NoDup_submseteq; [done|].
  intros [] _; repeat constructor.
Qed.

Lemma reachable_inv (s : State) :
  reachable s →
  NoDup (selected s)
  ∧ loading s = false
  ∧ (error s ≠ None → graph s = {| nodes := []; links := [] |})
  ∧ ∃ tags, NoDup tags ∧ ∀ n, n ∈ nodes (graph s) → group n = tags.
Proof.
  induction 1 as [|id s Hs IH|fetch ids s Hs IH].
  - split; [apply NoDup_nil_2|]. split; [done|]. split; [done|].
    exists []. split; [apply NoDup_nil_2|]. by intros n ?%elem_of_nil.
  - destruct IH as (Hnd & Hl & He & Htags).
    repeat split; try done. by apply toggle_NoDup.
  - destruct IH as (Hnd & _).
    rewrite apply_with_clicks_eq. cbn [selected graph loading error].
    split; [by apply toggle_all_NoDup|]. split; [done|].
    unfold apply. rewrite run_3. cbn [st].
    destruct (Api.fetchIntersection _ _).2 as [r|e]; cbn [graph error nodes].
    + split; [done|]. exists (Array_from (selected s)). split; [done|].
      intros n Hn. unfold apply_nodes in Hn.
      apply list_elem_of_In, in_map_iff in Hn as (i & <- & _). reflexivity.
    + split; [done|]. exists []. split; [apply NoDup_nil_2|].
      by intros n ?%elem_of_nil.
Qed.

(** X7. In every state the component can rest in, whatever was clicked
    and whatever the backend answered: no filter is selected twice, so at
    most three are; the loading flag is down; when an error is set, the
    graph is empty; and every displayed node carries at most three tags,
    none of them twice. *)
Theorem reachable_invariant (s : State) :
  reachable s →
  NoDup (selected s) ∧ length (selected s) ≤ 3
  ∧ loading s = false
  ∧ (error s ≠ None → graph s = {| nodes := []; links := [] |})
  ∧ (∀ n, n ∈ nodes (graph s) → NoDup (group n) ∧ length (group n) ≤ 3).
Proof.
  intros Hs. destruct (reachable_inv s Hs) as (Hnd & Hl & He & tags & Ht & Hn).
  split; [done|]. split; [by apply FilterId_list_short|].
  split; [done|]. split; [done|].
  intros n Hin. rewrite (Hn n Hin). split; [done|].
  by apply FilterId_list_short.
Qed.

(** X8. All the nodes of a displayed graph have the same colour: the
    tags of a node are the filters of the request, not the filters the
    node itself satisfies, so with two filters or more selected every
    node is drawn in the colour for several filters. *)
Theorem displayed_nodes_one_colour (s : State) (n1 n2 : GraphNode) :
  reachable s →
  n1 ∈ nodes (graph s) → n2 ∈ nodes (graph s) →
  nodeColor n1 = nodeColor n2
  ∧ (2 ≤ length (group n1) → nodeColor n2 = Some "#a855f7").
Proof.
  intros Hs H1 H2. destruct (reachable_inv s Hs) as (_ & _ & _ & tags & _ & Hn).
  pose proof (Hn n1 H1) as E1. pose proof (Hn n2 H2) as E2.
  unfold nodeColor. rewrite E1, E2. split; [done|].
  intros Hlen. destruct tags as [|x [|y tags]]; simpl in Hlen; try lia. done.
Qed.

Section Render.
Variable fetch : Api.Fetch Api.IntersectionResponse.

Local Abbreviation awaited s :=
  (Api.fetchIntersection fetch (Some (map FilterId_str (Array_from (selected s))))).

(** X9. While a call of [apply] is in flight the button is disabled and
    reads Loading; once the call has returned it is enabled again.  On an
    idle component the label tells what a click requests: Full graph
    exactly when the click requests the bare intersection path, Filter
    exactly when the requested path carries a query string of options. *)
Theorem button_tells_request (s : State) :
  loading s = false →
  (button_disabled (st (run fetch 1 s)) = true
   ∧ button_label (st (run fetch 1 s)) = "Loading…"
   ∧ button_disabled (apply fetch s) = false)
  ∧ (button_label s = "Full graph"
     ↔ requests (run fetch 1 s) = ["/api/intersection"])
  ∧ (button_label s = "Filter"
     ↔ ∃ q, requests (run fetch 1 s) = ["/api/intersection?options=" +:+ q]).
Proof.
  intros Hl. split.
  { rewrite run_1. cbn [st]. repeat split.
    unfold button_disabled, apply. rewrite run_3. cbn [st].
    by destruct (awaited s).2. }
  rewrite run_1. cbn [requests]. rewrite awaited_requests.
  unfold button_label, Set_size. rewrite Hl.
  destruct (selected s) as [|f l].
  - cbn. split; [done|]. split; [done|]. intros [q E]. discriminate E.
  - rewrite params_FilterIds. cbn [map]. rewrite join_cons.
    cbn [length Nat.eqb negb].
    split.
    + split; [done|]. intros E. discriminate E.
    + split; [|done]. intros _. eexists. reflexivity.
Qed.


End Render.

(** *** The layout mode *)

Lemma dag_effect_deps (g : Graph) (d : Dag) :
  deps (dag_effect g d) = Some (length (nodes g)).
Proof. unfold dag_effect. by destruct (decide _). Qed.

(** Renders alone never block the DAG mode. *)
Lemma dag_renders_unblocked (gs : list Graph) (d : Dag) :
  dagBlocked d = false → dagBlocked (dag_renders gs d) = false.
Proof.
  revert d. induction gs as [|g gs IH]; intros d Hd; [done|].
  apply (IH (dag_effect g d)). unfold dag_effect. by destruct (decide _).
Qed.

Lemma dag_renders_blocked (gs : list Graph) (d : Dag) (n : nat) :
  dagBlocked d = true → deps d = Some n →
  dagMode (dag_renders gs d) = None
  ↔ Forall (λ g, length (nodes g) = n) gs.
Proof.
  revert d. induction gs as [|g gs IH]; intros d Hb Hd.
  - unfold dagMode. simpl. rewrite Hb. split; [constructor|done].
  - cbn [dag_renders fold_left]. fold (dag_renders gs (dag_effect g d)).
    rewrite Forall_cons. unfold dag_effect. rewrite Hd.
    destruct (decide (Some n = Some (length (nodes g)))) as [E|Hne].
    + injection E as E. rewrite (IH d Hb Hd). split; [by intros ?|by intros [_ ?]].
    + unfold dagMode. rewrite dag_renders_unblocked by done.
      split; [done|]. intros [E _]. destruct Hne. by rewrite E.
Qed.

(** X11. After a layout error on a graph, the DAG mode stays off through
    the following renders as long as each displayed graph has as many
    nodes as the one that failed, and it comes back with the first graph
    that has another number of nodes.  A new graph with the same number
    of nodes as the failed one is therefore laid out without the DAG
    mode. *)
Theorem dagMode_after_error (d : Dag) (g0 : Graph) (gs : list Graph) :
  (dagMode (dag_renders gs (onDagError (dag_effect g0 d))) = None
   ↔ Forall (λ g, length (nodes g) = length (nodes g0)) gs)
  ∧ (dagMode (dag_renders gs (onDagError (dag_effect g0 d))) = Some "lr"
     ↔ Exists (λ g, length (nodes g) ≠ length (nodes g0)) gs).
Proof.
  assert (Hnone : dagMode (dag_renders gs (onDagError (dag_effect g0 d))) = None
            ↔ Forall (λ g, length (nodes g) = length (nodes g0)) gs).
  { apply dag_renders_blocked; [done|]. cbn [onDagError deps].
    apply dag_effect_deps. }
  split; [exact Hnone|].
  assert (Hex : Exists (λ g, length (nodes g) ≠ length (nodes g0)) gs
            ↔ ¬ Forall (λ g, length (nodes g) = length (nodes g0)) gs).
  { split.
    - apply (Exists_not_Forall (λ g, length (nodes g) = length (nodes g0))).
    - apply (not_Forall_Exists (λ g, length (nodes g) = length (nodes g0))). }
  rewrite Hex, <- Hnone. unfold dagMode.
  destruct (dagBlocked _); split; try done.
Qed.

(** *** The further properties at concrete inputs *)

Lemma apply_uses_snapshot_witness :
  let fetch : Api.Fetch Api.IntersectionResponse :=
    λ _, Return {| Api.status := 200; Api.text := "{...}";
                   Api.json := Return {| Api.options := ["public"];
                                         Api.nodes := Some ["a"];
                                         Api.edges := None |} |} in
  selected (apply_with_clicks fetch [sink] (toggle public initial))
  = [public; sink]
  ∧ group {| id := "a"; group := [public] |} = [public].
Proof.
  intros fetch.
  destruct (apply_uses_snapshot fetch [sink] (toggle public initial))
    as (Hsel & _ & _ & _ & Htags).
  split; [exact Hsel|].
  apply Htags. vm_compute. left.
Defined.

Lemma apply_idempotent_witness :
  let fetch : Api.Fetch Api.IntersectionResponse :=
    λ _, Return {| Api.status := 503; Api.text := "down";
                   Api.json := Throw (ThrownError SyntaxError "Unexpected token d") |} in
  apply fetch (setLoading true (toggle vuln initial))
  = apply fetch (toggle vuln initial).
Proof.
  intros fetch.
  destruct (apply_idempotent fetch (toggle vuln initial)
              (setLoading true (toggle vuln initial))) as [H _].
  - reflexivity.
  - exact H.
Defined.

Lemma reachable_invariant_witness :
  let fetch : Api.Fetch Api.IntersectionResponse :=
    λ _, Return {| Api.status := 500; Api.text := "boom";
                   Api.json := Throw (ThrownError SyntaxError "Unexpected token b") |} in
  length (selected (apply_with_clicks fetch [sink; sink] (toggle public initial))) ≤ 3.
Proof.
  intros fetch.
  destruct (reachable_invariant
              (apply_with_clicks fetch [sink; sink] (toggle public initial)))
    as (_ & H & _).
  - apply reachable_apply, reachable_toggle, reachable_initial.
  - exact H.
Defined.

Lemma displayed_nodes_one_colour_witness :
  let fetch : Api.Fetch Api.IntersectionResponse :=
    λ _, Return {| Api.status := 200; Api.text := "{...}";
                   Api.json := Return {| Api.options := [];
                                         Api.nodes := Some ["a"; "b"];
                                         Api.edges := None |} |} in
  nodeColor {| id := "a"; group := [public; sink] |}
  = nodeColor {| id := "b"; group := [public; sink] |}.
Proof.
  intros fetch.
  destruct (displayed_nodes_one_colour
              (apply_with_clicks fetch [] (toggle sink (toggle public initial)))
              {| id := "a"; group := [public; sink] |}
              {| id := "b"; group := [public; sink] |}) as [H _].
  - apply reachable_apply, reachable_toggle, reachable_toggle, reachable_initial.
  - vm_compute. left.
  - vm_compute. right. left.
  - exact H.
Defined.

Lemma button_tells_request_witness :
  button_label (toggle sink initial) = "Filter"
  ↔ ∃ q, requests (run (λ _, Throw (ThrownError TypeError "Failed to fetch")) 1
                       (toggle sink initial))
         = ["/api/intersection?options=" +:+ q].
Proof.
  destruct (button_tells_request
              (λ _, Throw (ThrownError TypeError "Failed to fetch"))
              (toggle sink initial)) as (_ & _ & H).
  - reflexivity.
  - exact H.
Defined.

